(** * kineto: the thread-description declaration shim

    Verification development for [libkineto/src/oldWindowsKitCorrection.h]
    and for the thread naming facility that is built on the two native
    primitives the header declares.

    The header is a declaration-only file.  It is embedded as the list of its
    source lines, each line being either a preprocessor directive or a run of
    C tokens.  On top of that sit a small preprocessor (conditional groups,
    the include-once pragma), a parser for WinAPI-style prototypes, and the
    C rules for merging a redeclaration into a table of declared functions. *)

From stdpp Require Import gmap strings list.

Module Shim.

(** ** Tokens and lines *)

Inductive token : Type :=
| TId (s : string)      (* identifier, type name or macro name *)
| TStr (s : string)     (* string literal, without its quotes *)
| TExtern               (* the keyword extern *)
| TLParen | TRParen
| TLBrace | TRBrace
| TComma | TSemi | TStar.

Inductive line : Type :=
| PragmaOnce            (* #pragma once *)
| Ifdef (m : string)    (* #ifdef m *)
| Endif                 (* #endif *)
| Code (ts : list token).

(** The header, line by line (25 lines, blank lines are [Code []]). *)
Definition oldWindowsKitCorrection_h : list line :=
  [ PragmaOnce                                                   (*  1 *)
  ; Code []                                                      (*  2 *)
  ; Ifdef "__cplusplus"                                          (*  3 *)
  ; Code [TExtern; TStr "C"; TLBrace]                            (*  4 *)
  ; Endif                                                        (*  5 *)
  ; Code []                                                      (*  6 *)
  ; Code [TId "WINBASEAPI"]                                      (*  7 *)
  ; Code [TId "HRESULT"]                                         (*  8 *)
  ; Code [TId "WINAPI"]                                          (*  9 *)
  ; Code [TId "SetThreadDescription"; TLParen]                   (* 10 *)
  ; Code [TId "_In_"; TId "HANDLE"; TId "hThread"; TComma]       (* 11 *)
  ; Code [TId "_In_"; TId "PCWSTR"; TId "lpThreadDescription"]   (* 12 *)
  ; Code [TRParen; TSemi]                                        (* 13 *)
  ; Code []                                                      (* 14 *)
  ; Code [TId "WINBASEAPI"]                                      (* 15 *)
  ; Code [TId "HRESULT"]                                         (* 16 *)
  ; Code [TId "WINAPI"]                                          (* 17 *)
  ; Code [TId "GetThreadDescription"; TLParen]                   (* 18 *)
  ; Code [TId "_In_"; TId "HANDLE"; TId "hThread"; TComma]       (* 19 *)
  ; Code [TId "_Outptr_result_z_"; TId "PWSTR"; TStar;
          TId "ppszThreadDescription"]                           (* 20 *)
  ; Code [TRParen; TSemi]                                        (* 21 *)
  ; Code []                                                      (* 22 *)
  ; Ifdef "__cplusplus"                                          (* 23 *)
  ; Code [TRBrace]                                               (* 24 *)
  ; Endif                                                        (* 25 *)
  ].

(** The path under which the header is included. *)
Definition shim_path : string := "oldWindowsKitCorrection.h".

(** ** Preprocessor *)

(** A line is live when every enclosing conditional group is taken. *)
Definition live (stack : list bool) : bool := forallb id stack.

(** [pp_lines defined stack ls] runs the directives of [ls].  [defined] tells
    which macros are defined where the file is included; [stack] holds the
    outcome of the open [#ifdef]s, innermost first.  The result is whether a
    live [#pragma once] was met, and the tokens that survive.  An [#endif]
    without its [#ifdef], or an [#ifdef] left open, is an error.  Macros are
    only tested: a macro name met in a code line stays as written, no
    replacement text is modelled. *)
Fixpoint pp_lines (defined : string → bool) (stack : list bool) (ls : list line)
  : option (bool * list token) :=
  match ls with
  | [] => match stack with [] => Some (false, []) | _ :: _ => None end
  | l :: ls' =>
      match l with
      | PragmaOnce =>
          match pp_lines defined stack ls' with
          | Some (o, ts) => Some (live stack || o, ts)
          | None => None
          end
      | Ifdef m => pp_lines defined (defined m :: stack) ls'
      | Endif =>
          match stack with
          | [] => None
          | _ :: stack' => pp_lines defined stack' ls'
          end
      | Code ts =>
          match pp_lines defined stack ls' with
          | Some (o, ts') => Some (o, if live stack then ts ++ ts' else ts')
          | None => None
          end
      end
  end.

(** The macros tested by the conditional groups of a file. *)
Fixpoint conditions (ls : list line) : list string :=
  match ls with
  | [] => []
  | Ifdef m :: ls' => m :: conditions ls'
  | _ :: ls' => conditions ls'
  end.

(** State of the preprocessor over one translation unit: the files that asked
    to be included once, and the tokens emitted so far. *)
Record pp_state : Type := PPState
  { once : gset string
  ; out : list token }.

Definition pp_init : pp_state := PPState ∅ [].

(** [#include] of the file [content] found at [path]. *)
Definition include (defined : string → bool) (path : string)
    (content : list line) (st : pp_state) : option pp_state :=
  if bool_decide (path ∈ once st) then Some st
  else
    match pp_lines defined [] content with
    | None => None
    | Some (o, ts) =>
        Some (PPState (if o then {[path]} ∪ once st else once st)
                      (out st ++ ts))
    end.

(** The same [#include] written [n] times in a row. *)
Fixpoint include_times (n : nat) (defined : string → bool) (path : string)
    (content : list line) (st : pp_state) : option pp_state :=
  match n with
  | 0 => Some st
  | S k =>
      match include defined path content st with
      | None => None
      | Some st' => include_times k defined path content st'
      end
  end.

(** ** Parser for WinAPI prototypes

    The declarations of the header have the form
    [ATTR RET CONV name ( ANNOT TYPE stars pname , ... ) ;]
    optionally inside an [extern "lit" { ... }] block. *)

Record param : Type := Param
  { p_annot : string      (* SAL annotation *)
  ; p_type : string       (* base type name *)
  ; p_stars : nat         (* pointer depth written after it *)
  ; p_name : string }.

Record fundecl : Type := FunDecl
  { d_attr : string       (* first specifier: WINBASEAPI *)
  ; d_ret : string        (* return type *)
  ; d_conv : string       (* calling convention: WINAPI *)
  ; d_name : string
  ; d_params : list param }.

(** A declaration with the literal of the linkage block around it, if any. *)
Record placed : Type := Placed
  { in_extern : option string
  ; decl : fundecl }.

Fixpoint parse_stars (ts : list token) : nat * list token :=
  match ts with
  | TStar :: ts' => let '(n, r) := parse_stars ts' in (S n, r)
  | _ => (0, ts)
  end.

Definition parse_param (ts : list token) : option (param * list token) :=
  match ts with
  | TId a :: TId t :: r =>
      match parse_stars r with
      | (n, TId x :: r') => Some (Param a t n x, r')
      | _ => None
      end
  | _ => None
  end.

(** Parameters up to (not including) the closing parenthesis. *)
Fixpoint parse_params (fuel : nat) (ts : list token)
  : option (list param * list token) :=
  match fuel with
  | 0 => None
  | S fuel' =>
      match parse_param ts with
      | Some (p, TComma :: r) =>
          match parse_params fuel' r with
          | Some (ps, r') => Some (p :: ps, r')
          | None => None
          end
      | Some (p, r) => Some ([p], r)
      | None => None
      end
  end.

Definition parse_fundecl (fuel : nat) (ts : list token)
  : option (fundecl * list token) :=
  match ts with
  | TId a :: TId r :: TId c :: TId f :: TLParen :: rest =>
      match parse_params fuel rest with
      | Some (ps, TRParen :: TSemi :: rest') =>
          Some (FunDecl a r c f ps, rest')
      | _ => None
      end
  | _ => None
  end.

(** Declarations of a token stream; [ext] is the open linkage block.  Linkage
    blocks do not nest here, and a block left open is an error. *)
Fixpoint parse_unit (fuel : nat) (ext : option string) (ts : list token)
  : option (list placed) :=
  match fuel with
  | 0 => None
  | S fuel' =>
      match ts, ext with
      | [], None => Some []
      | [], Some _ => None
      | TExtern :: TStr s :: TLBrace :: r, None => parse_unit fuel' (Some s) r
      | TExtern :: _, _ => None
      | TRBrace :: r, Some _ => parse_unit fuel' None r
      | TRBrace :: _, None => None
      | _, _ =>
          match parse_fundecl fuel' ts with
          | Some (d, r) =>
              match parse_unit fuel' ext r with
              | Some ds => Some (Placed ext d :: ds)
              | None => None
              end
          | None => None
          end
      end
  end.

(** The fuel given is one more than the number of tokens; more fuel never
    changes a result ([parse_unit_fuel] below). *)
Definition parse (ts : list token) : option (list placed) :=
  parse_unit (S (length ts)) None ts.

(** The declarations a translation unit sees from including the header once,
    as a function of the macros defined at that point. *)
Definition shim_decls (defined : string → bool) : option (list placed) :=
  match include defined shim_path oldWindowsKitCorrection_h pp_init with
  | None => None
  | Some st => parse (out st)
  end.

(** ** Declared functions

    What a prototype declares: its linkage, the two WinAPI markers, and the
    types of its result and parameters.  Parameter names and SAL annotations
    are not part of it. *)

Inductive ctype : Type :=
| TName (s : string)
| TPtr (t : ctype).

Inductive linkage : Type := LinkC | LinkCxx.

Record fsig : Type := FSig
  { s_linkage : linkage
  ; s_attr : string
  ; s_conv : string
  ; s_ret : ctype
  ; s_args : list ctype }.

#[global] Instance ctype_eq_dec : EqDecision ctype.
Proof. solve_decision. Defined.
#[global] Instance linkage_eq_dec : EqDecision linkage.
Proof. solve_decision. Defined.
#[global] Instance fsig_eq_dec : EqDecision fsig.
Proof. solve_decision. Defined.

Definition param_type (p : param) : ctype :=
  Nat.iter (p_stars p) TPtr (TName (p_type p)).

(** Result type and parameter types, in order. *)
Definition prototype (d : fundecl) : ctype * list ctype :=
  (TName (d_ret d), map param_type (d_params d)).

Fixpoint find_decl (name : string) (ds : list placed) : option placed :=
  match ds with
  | [] => None
  | p :: ds' => if decide (d_name (decl p) = name) then Some p
                else find_decl name ds'
  end.

Definition prototype_of (name : string) (ds : option (list placed))
  : option (ctype * list ctype) :=
  match ds with
  | None => None
  | Some l => match find_decl name l with
              | None => None
              | Some p => Some (prototype (decl p))
              end
  end.

(** Number of declarations of [name]. *)
Definition count_decl (name : string) (ds : list placed) : nat :=
  length (filter (λ p, d_name (decl p) = name) ds).

(** A compiler defines [__cplusplus] exactly when it compiles C++, where a
    declaration outside any linkage block has C++ linkage. *)
Definition default_linkage (defined : string → bool) : linkage :=
  if defined "__cplusplus" then LinkCxx else LinkC.

Definition linkage_of (dflt : linkage) (ext : option string) : option linkage :=
  match ext with
  | None => Some dflt
  | Some s => if decide (s = "C") then Some LinkC
              else if decide (s = "C++") then Some LinkCxx
              else None
  end.

Definition sig_of (dflt : linkage) (p : placed) : option fsig :=
  match linkage_of dflt (in_extern p) with
  | None => None
  | Some l =>
      let d := decl p in
      Some (FSig l (d_attr d) (d_conv d) (TName (d_ret d))
                 (map param_type (d_params d)))
  end.

(** Declaring a function: a new name is entered, a redeclaration with the
    same signature changes nothing, any other redeclaration is a conflict.
    The table keeps one signature per name and compares signatures as they
    are written (no overloads, no type aliases). *)
Definition declare (funs : gmap string fsig) (name : string) (s : fsig)
  : option (gmap string fsig) :=
  match funs !! name with
  | None => Some (<[name := s]> funs)
  | Some s' => if decide (s' = s) then Some funs else None
  end.

Fixpoint declare_all (dflt : linkage) (funs : gmap string fsig)
    (ds : list placed) : option (gmap string fsig) :=
  match ds with
  | [] => Some funs
  | p :: ds' =>
      match sig_of dflt p with
      | None => None
      | Some s =>
          match declare funs (d_name (decl p)) s with
          | None => None
          | Some funs' => declare_all dflt funs' ds'
          end
      end
  end.

(** ** Names a prototype needs from its surroundings *)

Definition macro_names (d : fundecl) : list string :=
  d_attr d :: d_conv d :: map p_annot (d_params d).

Definition type_names (d : fundecl) : list string :=
  d_ret d :: map p_type (d_params d).

(** Names the declarations bring into being: the functions and, within each
    prototype, its parameters. *)
Definition introduced_names (d : fundecl) : list string :=
  d_name d :: map p_name (d_params d).

Definition resolves (macros types : gset string) (d : fundecl) : bool :=
  forallb (λ x, bool_decide (x ∈ macros)) (macro_names d)
  && forallb (λ x, bool_decide (x ∈ types)) (type_names d).

Definition is_defined (macros : gset string) (m : string) : bool :=
  bool_decide (m ∈ macros).

(** Compiling a translation unit at the point where it includes the header:
    [macros] and [types] are the macros and type names defined so far, [funs]
    the functions declared so far.  The result is the functions declared
    afterwards, or [None] when the unit is ill-formed. *)
Definition compile_shim (macros types : gset string) (funs : gmap string fsig)
  : option (gmap string fsig) :=
  match shim_decls (is_defined macros) with
  | None => None
  | Some ds =>
      if forallb (λ p, resolves macros types (decl p)) ds
      then declare_all (default_linkage (is_defined macros)) funs ds
      else None
  end.

(** Annotations of the parameters of [name], in order. *)
Definition annotations_of (name : string) (ds : option (list placed))
  : option (list string) :=
  match ds with
  | None => None
  | Some l => match find_decl name l with
              | None => None
              | Some p => Some (map p_annot (d_params (decl p)))
              end
  end.

(** The two prototypes as the header writes them (lines 7-13 and 15-21). *)
Definition SetThreadDescription_decl : fundecl :=
  FunDecl "WINBASEAPI" "HRESULT" "WINAPI" "SetThreadDescription"
    [ Param "_In_" "HANDLE" 0 "hThread"
    ; Param "_In_" "PCWSTR" 0 "lpThreadDescription" ].

Definition GetThreadDescription_decl : fundecl :=
  FunDecl "WINBASEAPI" "HRESULT" "WINAPI" "GetThreadDescription"
    [ Param "_In_" "HANDLE" 0 "hThread"
    ; Param "_Outptr_result_z_" "PWSTR" 1 "ppszThreadDescription" ].

(** The linkage block the header opens around them. *)
Definition shim_block (defined : string → bool) : option string :=
  if defined "__cplusplus" then Some "C" else None.

(** The names the header takes from the platform's base headers. *)
Definition sdk_macro_names : list string :=
  ["WINBASEAPI"; "WINAPI"; "_In_"; "_Outptr_result_z_"].

Definition sdk_type_names : list string :=
  ["HANDLE"; "HRESULT"; "PCWSTR"; "PWSTR"].

(** A table in which the platform's own headers have already declared both
    primitives, and the macros and types those headers define. *)
Definition sdk_funs : gmap string fsig :=
  {[ "SetThreadDescription" :=
       FSig LinkC "WINBASEAPI" "WINAPI" (TName "HRESULT")
            [TName "HANDLE"; TName "PCWSTR"]
   ; "GetThreadDescription" :=
       FSig LinkC "WINBASEAPI" "WINAPI" (TName "HRESULT")
            [TName "HANDLE"; TPtr (TName "PWSTR")] ]}.

Definition sdk_macros : gset string := list_to_set sdk_macro_names.
Definition sdk_types : gset string := list_to_set sdk_type_names.

(** The header without its first line. *)
Definition unguarded_h : list line := tail oldWindowsKitCorrection_h.

(** [funs] already holds every declaration of [ds], with the same signature. *)
Definition already_declares (dflt : linkage) (funs : gmap string fsig)
    (ds : list placed) : Prop :=
  Forall (λ p, ∃ s, sig_of dflt p = Some s ∧ funs !! d_name (decl p) = Some s) ds.


(** ** Whole translation units *)

(** The [#include]s of a unit, in order, each a path and the file found
    there. *)
Fixpoint include_all (defined : string → bool)
    (files : list (string * list line)) (st : pp_state) : option pp_state :=
  match files with
  | [] => Some st
  | (path, content) :: files' =>
      match include defined path content st with
      | None => None
      | Some st' => include_all defined files' st'
      end
  end.

(** Compiling a unit that consists of the given [#include]s: preprocess them
    in order, parse what they emit, resolve the names, declare. *)
Definition compile_unit (macros types : gset string) (funs : gmap string fsig)
    (files : list (string * list line)) : option (gmap string fsig) :=
  match include_all (is_defined macros) files pp_init with
  | None => None
  | Some st =>
      match parse (out st) with
      | None => None
      | Some ds =>
          if forallb (λ p, resolves macros types (decl p)) ds
          then declare_all (default_linkage (is_defined macros)) funs ds
          else None
      end
  end.

End Shim.

(** * The thread naming facility

    The facility and its platform backends are not part of the source tree
    that holds the header; they are modelled from the specification, over an
    operating system whose two primitives have the shape the header declares:
    a handle and a text in and a status out for the set primitive, a handle in
    and a status and a text buffer out for the get primitive. *)

Module Naming.

Abbreviation ThreadHandle := nat (only parsing).
Abbreviation ThreadName := string (only parsing).
Abbreviation HRESULT := Z (only parsing).

(** Modelled from the spec: the error taxonomy of the facility, which has no
    source file here.  [NativeFailure] keeps the status the platform gave. *)
Inductive NamingError : Type :=
| Unsupported
| InvalidName
| NativeFailure (status : HRESULT)
| NotFound.

(** Modelled from the spec: the typed result both operations return. *)
Inductive Result (A : Type) : Type :=
| Ok (a : A)
| Err (e : NamingError).
Arguments Ok {A} a.
Arguments Err {A} e.

(** Modelled from the spec: the name storage the operating system owns.  Each
    live thread has one slot, empty when the thread starts; a thread that has
    ended has none.  [fault], when set, is the failure every native call
    reports (its status is the negative number of that magnitude). *)
Record OS : Type := MkOS
  { slots : gmap ThreadHandle ThreadName
  ; fault : option positive }.

(** Modelled from the spec: the status codes of the native primitives, which
    no source file here defines: success, the invalid-handle failure, and the
    test for failure (a negative status). *)
Definition S_OK : HRESULT := 0.
Definition E_HANDLE : HRESULT := -2147024890.   (* 0x80070006 *)
Definition FAILED (hr : HRESULT) : bool := (hr <? 0)%Z.

(** Modelled from the spec: the operating system starting a thread, whose
    name slot begins empty. *)
Definition thread_start (os : OS) (h : ThreadHandle) : OS :=
  MkOS (<[h := ""]> (slots os)) (fault os).

(** Modelled from the spec: the thread ending, its name being discarded. *)
Definition thread_exit (os : OS) (h : ThreadHandle) : OS :=
  MkOS (delete h (slots os)) (fault os).

(** Modelled from the spec: the native set primitive, whose implementation the
    operating system supplies.  It overwrites the slot of a live thread. *)
Definition SetThreadDescription (os : OS) (hThread : ThreadHandle)
    (lpThreadDescription : ThreadName) : HRESULT * OS :=
  match fault os with
  | Some e => (Z.neg e, os)
  | None =>
      match slots os !! hThread with
      | None => (E_HANDLE, os)
      | Some _ =>
          (S_OK, MkOS (<[hThread := lpThreadDescription]> (slots os)) (fault os))
      end
  end.

(** Modelled from the spec: the native get primitive; the second component is
    the buffer handed back through the out-parameter. *)
Definition GetThreadDescription (os : OS) (hThread : ThreadHandle)
  : HRESULT * option ThreadName :=
  match fault os with
  | Some e => (Z.neg e, None)
  | None =>
      match slots os !! hThread with
      | None => (E_HANDLE, None)
      | Some w => (S_OK, Some w)
      end
  end.

(** Modelled from the spec: what a platform does with a name longer than its
    limit. *)
Inductive Overflow : Type := Truncates | Rejects.

(** Modelled from the spec: the properties of a platform that has a naming
    primitive: its length limit if any, its treatment of longer names, the
    names its text encoding can represent, and whether it can read the name of
    a thread other than the caller. *)
Record Platform : Type := MkPlatform
  { max_len : option nat
  ; overflow : Overflow
  ; representable : ThreadName → bool
  ; reads_other_threads : bool }.

(** Modelled from the spec: the backend chosen at build time, either one with
    a native primitive or the no-op for platforms without one. *)
Inductive Backend : Type :=
| NoOp
| Native (p : Platform).

(** Modelled from the spec: a name is within the platform's length limit. *)
Definition within_limit (p : Platform) (name : ThreadName) : bool :=
  match max_len p with
  | None => true
  | Some L => bool_decide (String.length name ≤ L)
  end.

(** Modelled from the spec: the text handed to the platform for [name]. *)
Definition prepare (p : Platform) (name : ThreadName) : Result ThreadName :=
  if negb (representable p name) then Err InvalidName
  else if within_limit p name then Ok name
  else
    match overflow p, max_len p with
    | Truncates, Some L => Ok (String.substring 0 L name)
    | Truncates, None => Ok name
    | Rejects, _ => Err InvalidName
    end.

(** Modelled from the spec: the backend operation that names the calling
    thread [self]. *)
Definition set_current_thread_name (b : Backend) (os : OS)
    (self : ThreadHandle) (name : ThreadName) : Result unit * OS :=
  match b with
  | NoOp => (Ok tt, os)
  | Native p =>
      match prepare p name with
      | Err e => (Err e, os)
      | Ok w =>
          let '(hr, os') := SetThreadDescription os self w in
          if FAILED hr then (Err (NativeFailure hr), os') else (Ok tt, os')
      end
  end.

(** Modelled from the spec: the backend operation that reads the name of
    thread [handle] on behalf of the calling thread [self]. *)
Definition get_thread_name (b : Backend) (os : OS)
    (self handle : ThreadHandle) : Result ThreadName :=
  match b with
  | NoOp => Ok ""
  | Native p =>
      if negb (reads_other_threads p) && negb (bool_decide (handle = self))
      then Err Unsupported
      else
        match GetThreadDescription os handle with
        | (hr, buf) =>
            if FAILED hr then
              if bool_decide (hr = E_HANDLE) then Err NotFound
              else Err (NativeFailure hr)
            else match buf with
                 | Some w => Ok w
                 | None => Ok ""
                 end
        end
  end.

(** Modelled from the spec: the public call surface, which dispatches to the
    active backend: the write operation. *)
Definition SetThreadName (b : Backend) (os : OS) (self : ThreadHandle)
    (name : ThreadName) : Result unit * OS :=
  set_current_thread_name b os self name.

(** Modelled from the spec: the public call surface, read operation. *)
Definition GetThreadName (b : Backend) (os : OS) (self handle : ThreadHandle)
  : Result ThreadName :=
  get_thread_name b os self handle.

(** Modelled from the spec: a platform with the 15-character limit the
    specification gives as an example, which truncates longer names, and an
    operating system with two live threads, sound or failing. *)
Definition limit15 : Platform := MkPlatform (Some 15) Truncates (λ _, true) true.

Definition two_threads : OS := thread_start (thread_start (MkOS ∅ None) 1) 2.

Definition failing_os : OS := MkOS (slots two_threads) (Some 5%positive).

End Naming.

(** * Properties of the declaration shim *)

Module ShimFacts.
Import Shim.

(** ** What one inclusion yields *)

Lemma include_seen defined path content st :
  path ∈ once st → include defined path content st = Some st.
Proof. intros Hin. unfold include. by rewrite bool_decide_true. Qed.

Lemma include_fresh defined path content st :
  path ∉ once st →
  include defined path content st =
    match pp_lines defined [] content with
    | None => None
    | Some (o, ts) =>
        Some (PPState (if o then {[path]} ∪ once st else once st) (out st ++ ts))
    end.
Proof. intros Hout. unfold include. by rewrite bool_decide_false. Qed.

(** The header always preprocesses, asks to be included once, and its tokens
    parse to the two prototypes inside the block [shim_block] tells. *)
Lemma shim_preprocessed defined :
  ∃ ts, pp_lines defined [] oldWindowsKitCorrection_h = Some (true, ts)
    ∧ parse ts = Some [ Placed (shim_block defined) SetThreadDescription_decl
                      ; Placed (shim_block defined) GetThreadDescription_decl ].
Proof.
  unfold shim_block.
  destruct (defined "__cplusplus") eqn:E; eexists; split;
    try (cbn; rewrite E; reflexivity); reflexivity.
Qed.

Lemma shim_decls_eq defined :
  shim_decls defined =
    Some [ Placed (shim_block defined) SetThreadDescription_decl
         ; Placed (shim_block defined) GetThreadDescription_decl ].
Proof.
  destruct (shim_preprocessed defined) as (ts & Hpp & Hparse).
  unfold shim_decls. rewrite include_fresh by apply not_elem_of_empty.
  rewrite Hpp. exact Hparse.
Qed.

Lemma shim_linkage defined :
  linkage_of (default_linkage defined) (shim_block defined) = Some LinkC.
Proof.
  unfold default_linkage, shim_block.
  by destruct (defined "__cplusplus").
Qed.

(** ** Fuel

    A parse that succeeds with some fuel succeeds, with the same result, with
    any larger fuel. *)

Lemma parse_params_fuel n m ts r :
  n ≤ m → parse_params n ts = Some r → parse_params m ts = Some r.
Proof.
  revert m ts r. induction n as [| n IH]; intros m ts r Hle H; [done |].
  destruct m as [| m]; [lia |].
  cbn in *. destruct (parse_param ts) as [[p [| t rest]] |]; [done | | done].
  destruct t; try done.
  destruct (parse_params n rest) as [[ps r'] |] eqn:Hn; [| done].
  by rewrite (IH m rest (ps, r') ltac:(lia) Hn).
Qed.

Lemma parse_fundecl_fuel n m ts r :
  n ≤ m → parse_fundecl n ts = Some r → parse_fundecl m ts = Some r.
Proof.
  intros Hle H. unfold parse_fundecl in *.
  repeat case_match; simplify_eq;
    match goal with
    | Hn : parse_params n _ = Some _, Hm : parse_params m _ = _ |- _ =>
        rewrite (parse_params_fuel n m _ _ Hle Hn) in Hm; by simplify_eq
    end.
Qed.

Lemma parse_unit_fuel n m ext ts ds :
  n ≤ m → parse_unit n ext ts = Some ds → parse_unit m ext ts = Some ds.
Proof.
  revert m ext ts ds.
  induction n as [| n IH]; intros m ext ts ds Hle H; [done |].
  destruct m as [| m]; [lia |].
  assert (n ≤ m) as Hle' by lia.
  assert (∀ ext' r,
    match parse_fundecl n ts with
    | Some (d, r) =>
        match parse_unit n ext' r with
        | Some ds => Some (Placed ext' d :: ds)
        | None => None
        end
    | None => None
    end = Some r →
    match parse_fundecl m ts with
    | Some (d, r) =>
        match parse_unit m ext' r with
        | Some ds => Some (Placed ext' d :: ds)
        | None => None
        end
    | None => None
    end = Some r) as Hdecl.
  { intros ext' r Hr.
    destruct (parse_fundecl n ts) as [[d rest] |] eqn:Hd; [| done].
    rewrite (parse_fundecl_fuel n m _ _ Hle' Hd).
    destruct (parse_unit n ext' rest) as [ds' |] eqn:Hu; [| done].
    by rewrite (IH m ext' rest ds' Hle' Hu). }
  cbn in *.
  destruct ts as [| t ts']; [done |].
  destruct t; try by apply Hdecl.
  - destruct ts' as [| t' ts'']; [by destruct ext |].
    destruct t'; try by destruct ext.
    destruct ts'' as [| t'' ts3]; [by destruct ext |].
    destruct t''; try by destruct ext.
    destruct ext; [done |]. by apply IH.
  - destruct ext; [| done]. by apply IH.
Qed.

(** ** Redeclaration *)

Lemma declare_same funs name s :
  funs !! name = Some s → declare funs name s = Some funs.
Proof.
  intros H. unfold declare. rewrite H. by rewrite decide_True.
Qed.

Lemma declare_all_present dflt funs ds :
  already_declares dflt funs ds → declare_all dflt funs ds = Some funs.
Proof.
  induction 1 as [| p ds (s & Hs & Hl) _ IH]; [done |].
  cbn. rewrite Hs. by rewrite (declare_same _ _ _ Hl).
Qed.

(** ** Repeated inclusion *)

Lemma once_recorded (path : string) (seen : gset string) :
  path ∈ {[path]} ∪ seen.
Proof. set_solver. Qed.

Lemma include_times_seen n defined path content st :
  path ∈ once st → include_times n defined path content st = Some st.
Proof.
  intros Hin. induction n as [| n IH]; [done |].
  cbn. by rewrite include_seen.
Qed.

(** ** The claims about the header *)

(** C1: whatever macros are defined, the header declares
    [SetThreadDescription] as a function that returns [HRESULT] and takes
    exactly two parameters, a [HANDLE] and then a [PCWSTR]. *)
Theorem SetThreadDescription_shape (defined : string → bool) :
  prototype_of "SetThreadDescription" (shim_decls defined)
  = Some (TName "HRESULT", [TName "HANDLE"; TName "PCWSTR"]).
Proof. by rewrite shim_decls_eq. Qed.

(** C2: whatever macros are defined, the header declares
    [GetThreadDescription] as a function that returns [HRESULT] and takes
    exactly two parameters, a [HANDLE] and then a [PWSTR*]; the first is
    annotated as an input and the second as an out-pointer to a
    zero-terminated text. *)
Theorem GetThreadDescription_shape (defined : string → bool) :
  prototype_of "GetThreadDescription" (shim_decls defined)
  = Some (TName "HRESULT", [TName "HANDLE"; TPtr (TName "PWSTR")])
  ∧ annotations_of "GetThreadDescription" (shim_decls defined)
    = Some ["_In_"; "_Outptr_result_z_"].
Proof. by rewrite shim_decls_eq. Qed.

(** C3: the header emits its two declarations whatever macros are defined
    (its only conditional groups test [__cplusplus], none tests an SDK
    version), and in every table of functions that already declares both with
    the same signatures, declaring them again leaves the table as it was. *)
Theorem shim_contributes_nothing (defined : string → bool) :
  ∃ ds,
    shim_decls defined = Some ds
    ∧ map (λ p, d_name (decl p)) ds
      = ["SetThreadDescription"; "GetThreadDescription"]
    ∧ conditions oldWindowsKitCorrection_h = ["__cplusplus"; "__cplusplus"]
    ∧ ∀ funs : gmap string fsig,
        already_declares (default_linkage defined) funs ds →
        declare_all (default_linkage defined) funs ds = Some funs.
Proof.
  eexists. split; [apply shim_decls_eq |].
  split; [done |]. split; [done |].
  intros funs H. by apply declare_all_present.
Qed.

(** C4: both declarations carry [WINBASEAPI] as their first specifier and
    [WINAPI] as their calling convention; compiled as C++ (where
    [__cplusplus] is defined) both lie inside an [extern "C"] block, compiled
    as C they lie in no block, and either way their linkage is C. *)
Theorem shim_convention_and_linkage (defined : string → bool) :
  ∃ ds,
    shim_decls defined = Some ds
    ∧ length ds = 2
    ∧ Forall (λ p,
        d_attr (decl p) = "WINBASEAPI"
        ∧ d_conv (decl p) = "WINAPI"
        ∧ in_extern p = (if defined "__cplusplus" then Some "C" else None)
        ∧ linkage_of (default_linkage defined) (in_extern p) = Some LinkC) ds.
Proof.
  eexists. split; [apply shim_decls_eq |]. split; [done |].
  pose proof (shim_linkage defined) as Hl.
  repeat constructor; done.
Qed.

(** C5: in a translation unit that has not yet seen the header, writing its
    inclusion one or more times in a row leaves the same state as writing it
    once: the tokens added parse to one declaration of each primitive, and
    the header is recorded as included once. *)
Theorem include_any_times_declares_once
    (defined : string → bool) (n : nat) (st : pp_state) :
  shim_path ∉ once st →
  ∃ st' ts ds,
    include_times (S n) defined shim_path oldWindowsKitCorrection_h st = Some st'
    ∧ include defined shim_path oldWindowsKitCorrection_h st = Some st'
    ∧ shim_path ∈ once st'
    ∧ out st' = out st ++ ts
    ∧ parse ts = Some ds
    ∧ count_decl "SetThreadDescription" ds = 1
    ∧ count_decl "GetThreadDescription" ds = 1
    ∧ length ds = 2.
Proof.
  intros Hfresh.
  destruct (shim_preprocessed defined) as (ts & Hpp & Hparse).
  pose proof (include_fresh defined _ oldWindowsKitCorrection_h _ Hfresh) as Hinc.
  rewrite Hpp in Hinc.
  eexists _, ts, _. cbn [include_times]. rewrite Hinc.
  split; [apply include_times_seen, once_recorded |].
  split; [done |]. split; [apply once_recorded |]. split; [done |].
  split; [exact Hparse |]. repeat split.
Qed.

Lemma include_any_times_declares_once_witness :
  ∃ st' ts ds,
    include_times 3 (λ _, true) shim_path oldWindowsKitCorrection_h pp_init
      = Some st'
    ∧ include (λ _, true) shim_path oldWindowsKitCorrection_h pp_init = Some st'
    ∧ shim_path ∈ once st'
    ∧ out st' = out pp_init ++ ts
    ∧ parse ts = Some ds
    ∧ count_decl "SetThreadDescription" ds = 1
    ∧ count_decl "GetThreadDescription" ds = 1
    ∧ length ds = 2.
Proof.
  apply (include_any_times_declares_once (λ _, true) 2 pp_init).
  cbn. apply not_elem_of_empty.
Defined.

Lemma shim_contributes_nothing_witness :
  ∃ ds,
    shim_decls (λ _, true) = Some ds
    ∧ already_declares LinkCxx sdk_funs ds
    ∧ declare_all LinkCxx sdk_funs ds = Some sdk_funs.
Proof.
  destruct (shim_contributes_nothing (λ _, true)) as (ds & Hds & _ & _ & H).
  assert (already_declares LinkCxx sdk_funs ds) as Hpresent.
  { rewrite shim_decls_eq in Hds. injection Hds as <-.
    repeat constructor; eexists; split; reflexivity. }
  exists ds. split; [exact Hds |]. split; [exact Hpresent |].
  exact (H sdk_funs Hpresent).
Defined.

(** Where the functions are not declared yet, the header enters exactly its
    two; where one is declared with another signature, it conflicts. *)
Example shim_declares_when_missing :
  (λ funs, (funs !! "SetThreadDescription", funs !! "GetThreadDescription",
            size funs)) <$> compile_shim sdk_macros sdk_types ∅
  = Some (sdk_funs !! "SetThreadDescription",
          sdk_funs !! "GetThreadDescription", 2).
Proof. vm_compute. reflexivity. Qed.

Example shim_conflicts_on_mismatch :
  compile_shim sdk_macros sdk_types
    {[ "SetThreadDescription" :=
         FSig LinkC "WINBASEAPI" "WINAPI" (TName "BOOL")
              [TName "HANDLE"; TName "PCWSTR"] ]} = None.
Proof. vm_compute. reflexivity. Qed.

(** Without the pragma, a second inclusion emits the declarations again. *)
Example unguarded_declares_twice :
  match include_times 2 (λ _, false) shim_path unguarded_h pp_init with
  | None => None
  | Some st =>
      (λ ds, (count_decl "SetThreadDescription" ds,
              count_decl "GetThreadDescription" ds)) <$> parse (out st)
  end = Some (2, 2).
Proof. vm_compute. reflexivity. Qed.

(** C10: a translation unit that includes the header compiles only if, at
    that point, the four macros [WINBASEAPI], [WINAPI], [_In_] and
    [_Outptr_result_z_] and the four types [HANDLE], [HRESULT], [PCWSTR] and
    [PWSTR] are already defined; the header itself brings none of these eight
    names into being (it introduces only its two functions and their
    parameters). *)
Theorem shim_needs_sdk_names
    (macros types : gset string) (funs funs' : gmap string fsig) :
  compile_shim macros types funs = Some funs' →
  Forall (λ x, x ∈ macros) sdk_macro_names
  ∧ Forall (λ x, x ∈ types) sdk_type_names
  ∧ ∃ ds,
      shim_decls (is_defined macros) = Some ds
      ∧ Forall (λ x, x ∉ concat (map (λ p, introduced_names (decl p)) ds))
          (sdk_macro_names ++ sdk_type_names).
Proof.
  intros H. unfold compile_shim in H. rewrite shim_decls_eq in H.
  destruct (forallb _ _) eqn:Hres; [clear H | done].
  cbn [forallb decl] in Hres. unfold resolves in Hres. cbn in Hres.
  rewrite ?andb_true_iff, ?bool_decide_eq_true in Hres.
  destruct_and!.
  split; [by repeat constructor |]. split; [by repeat constructor |].
  eexists. split; [apply shim_decls_eq |].
  apply (bool_decide_unpack _). vm_compute. exact I.
Qed.

Lemma shim_needs_sdk_names_witness :
  Forall (λ x, x ∈ sdk_macros) sdk_macro_names
  ∧ Forall (λ x, x ∈ sdk_types) sdk_type_names
  ∧ ∃ ds,
      shim_decls (is_defined sdk_macros) = Some ds
      ∧ Forall (λ x, x ∉ concat (map (λ p, introduced_names (decl p)) ds))
          (sdk_macro_names ++ sdk_type_names).
Proof.
  apply (shim_needs_sdk_names sdk_macros sdk_types sdk_funs sdk_funs).
  unfold compile_shim. rewrite shim_decls_eq.
  replace (forallb _ _) with true by (vm_compute; reflexivity).
  apply declare_all_present.
  repeat constructor; eexists; split; reflexivity.
Defined.

(** With one of the names missing, the unit does not compile. *)
Example shim_without_WINAPI :
  compile_shim (sdk_macros ∖ {["WINAPI"]}) sdk_types ∅ = None.
Proof. vm_compute. reflexivity. Qed.

Example shim_without_sdk : compile_shim ∅ ∅ ∅ = None.
Proof. vm_compute. reflexivity. Qed.

(** ** The table after the header *)

Lemma declare_inserts funs name s funs' :
  declare funs name s = Some funs' → funs' = <[name := s]> funs.
Proof.
  unfold declare. destruct (funs !! name) as [s' |] eqn:Hl.
  - destruct (decide (s' = s)) as [-> |]; [| done].
    intros [= <-]. by rewrite insert_id.
  - by intros [= <-].
Qed.


(** A declaration already in the table stays as it is. *)
Lemma declare_all_keeps dflt ds : ∀ funs funs' name s,
  declare_all dflt funs ds = Some funs' →
  funs !! name = Some s → funs' !! name = Some s.
Proof.
  induction ds as [| p ds IH]; intros funs funs' name s H Hl; cbn in H.
  { by injection H as <-. }
  destruct (sig_of dflt p) as [sp |]; [| done].
  destruct (declare funs (d_name (decl p)) sp) as [f1 |] eqn:Hd; [| done].
  apply (IH f1 funs' name s H).
  rewrite (declare_inserts _ _ _ _ Hd).
  destruct (decide (d_name (decl p) = name)) as [Heq | Hne].
  - rewrite Heq in *. unfold declare in Hd. rewrite Hl in Hd.
    destruct (decide (s = sp)) as [-> |]; [| done].
    by rewrite lookup_insert_eq.
  - by rewrite lookup_insert_ne.
Qed.

(** After its declarations were entered, a file's declarations are all in the
    table, so entering them once more changes nothing. *)
Lemma declare_all_enters dflt ds : ∀ funs funs',
  declare_all dflt funs ds = Some funs' → already_declares dflt funs' ds.
Proof.
  induction ds as [| p ds IH]; intros funs funs' H; cbn in H.
  { constructor. }
  destruct (sig_of dflt p) as [sp |] eqn:Hs; [| done].
  destruct (declare funs (d_name (decl p)) sp) as [f1 |] eqn:Hd; [| done].
  constructor; [| by apply (IH f1)].
  exists sp. split; [done |].
  apply (declare_all_keeps dflt ds f1 funs' _ _ H).
  rewrite (declare_inserts _ _ _ _ Hd). by rewrite lookup_insert_eq.
Qed.

Lemma declare_all_app dflt ds1 ds2 : ∀ funs,
  declare_all dflt funs (ds1 ++ ds2) =
    match declare_all dflt funs ds1 with
    | None => None
    | Some funs' => declare_all dflt funs' ds2
    end.
Proof.
  induction ds1 as [| p ds1 IH]; intros funs; cbn; [done |].
  destruct (sig_of dflt p); [| done].
  destruct (declare funs (d_name (decl p)) f); [| done].
  apply IH.
Qed.

Lemma declare_all_again dflt ds funs :
  declare_all dflt funs (ds ++ ds) = declare_all dflt funs ds.
Proof.
  rewrite declare_all_app.
  destruct (declare_all dflt funs ds) as [funs' |] eqn:H; [| done].
  by apply declare_all_present, (declare_all_enters dflt ds funs).
Qed.






(** The header preprocesses to tokens that parse, once or twice over. *)
Lemma shim_preprocessed_twice defined :
  ∃ ts, pp_lines defined [] oldWindowsKitCorrection_h = Some (true, ts)
    ∧ parse ts = Some [ Placed (shim_block defined) SetThreadDescription_decl
                      ; Placed (shim_block defined) GetThreadDescription_decl ]
    ∧ parse (ts ++ ts)
      = Some ([ Placed (shim_block defined) SetThreadDescription_decl
              ; Placed (shim_block defined) GetThreadDescription_decl ]
              ++ [ Placed (shim_block defined) SetThreadDescription_decl
                 ; Placed (shim_block defined) GetThreadDescription_decl ]).
Proof.
  unfold shim_block.
  destruct (defined "__cplusplus") eqn:E; eexists; split;
    try (cbn; rewrite E; reflexivity); split; reflexivity.
Qed.

(** ** Further properties of the header *)



(** X2: a unit that includes the header twice, under the same path or under
    two different paths to the same file, compiles exactly as a unit that
    includes it once: under one path the pragma suppresses the second copy,
    under two paths the second copy only redeclares. *)
Theorem double_inclusion_is_harmless
    (macros types : gset string) (funs : gmap string fsig) (p1 p2 : string) :
  compile_unit macros types funs
    [ (p1, oldWindowsKitCorrection_h); (p2, oldWindowsKitCorrection_h) ]
  = compile_shim macros types funs.
Proof.
  destruct (shim_preprocessed_twice (is_defined macros))
    as (ts & Hpp & Hparse & Hparse2).
  unfold compile_shim. rewrite shim_decls_eq.
  unfold compile_unit. cbn [include_all].
  rewrite include_fresh by apply not_elem_of_empty. rewrite Hpp. cbn [out pp_init app].
  match goal with
  | |- context [include ?d p2 ?c ?st] =>
      destruct (decide (p2 ∈ once st)) as [Hin | Hout];
        [ rewrite (include_seen d p2 c st Hin)
        | rewrite (include_fresh d p2 c st Hout) ]
  end.
  - cbn [out]. by rewrite Hparse.
  - rewrite Hpp. cbn [out]. rewrite Hparse2.
    rewrite forallb_app, andb_diag.
    destruct (forallb _ _); [| done].
    apply declare_all_again.
Qed.

End ShimFacts.

(** * Properties of the thread naming facility *)

Module NamingFacts.
Import Naming.

(** ** The native primitives *)

Lemma native_set_status os h w :
  (SetThreadDescription os h w).1 = (GetThreadDescription os h).1.
Proof.
  unfold SetThreadDescription, GetThreadDescription.
  destruct (fault os); [done |]. by destruct (slots os !! h).
Qed.

Lemma native_set_success os h w hr os' :
  SetThreadDescription os h w = (hr, os') → FAILED hr = false →
  os' = MkOS (<[h := w]> (slots os)) (fault os) ∧ fault os = None.
Proof.
  unfold SetThreadDescription.
  destruct (fault os) as [e |] eqn:Hf.
  { intros [= <- <-]. done. }
  destruct (slots os !! h); intros [= <- <-]; done.
Qed.

Lemma native_set_frame os h w h' :
  h ≠ h' →
  slots (SetThreadDescription os h w).2 !! h' = slots os !! h'
  ∧ fault (SetThreadDescription os h w).2 = fault os.
Proof.
  intros Hne. unfold SetThreadDescription.
  destruct (fault os) eqn:Hf; [done |].
  destruct (slots os !! h); [| done].
  cbn. by rewrite lookup_insert_ne.
Qed.

Lemma native_get_stored slots0 h w :
  GetThreadDescription (MkOS (<[h := w]> slots0) None) h = (S_OK, Some w).
Proof. unfold GetThreadDescription. cbn. by rewrite lookup_insert_eq. Qed.

(** ** The write path *)

Lemma prepare_valid p name :
  representable p name = true → within_limit p name = true →
  prepare p name = Ok name.
Proof. intros Hr Hl. unfold prepare. by rewrite Hr, Hl. Qed.

Lemma prepare_error p name e : prepare p name = Err e → e = InvalidName.
Proof.
  unfold prepare.
  destruct (representable p name); cbn; [| congruence].
  destruct (within_limit p name); [congruence |].
  destruct (overflow p), (max_len p); congruence.
Qed.

Lemma set_native_unfold p os self name w :
  prepare p name = Ok w →
  SetThreadName (Native p) os self name =
    (if FAILED (SetThreadDescription os self w).1
     then Err (NativeFailure (SetThreadDescription os self w).1)
     else Ok tt,
     (SetThreadDescription os self w).2).
Proof.
  intros Hp. unfold SetThreadName, set_current_thread_name. rewrite Hp.
  destruct (SetThreadDescription os self w) as [hr os']. cbn.
  by destruct (FAILED hr).
Qed.

Lemma set_frame b os self name h :
  self ≠ h →
  slots (SetThreadName b os self name).2 !! h = slots os !! h
  ∧ fault (SetThreadName b os self name).2 = fault os.
Proof.
  intros Hne. destruct b as [| p]; [done |].
  destruct (prepare p name) as [w | e] eqn:Hp.
  - rewrite (set_native_unfold _ _ _ _ _ Hp). cbn.
    by apply native_set_frame.
  - unfold SetThreadName, set_current_thread_name. by rewrite Hp.
Qed.

(** On a sound operating system, naming a live thread with a valid name
    within the limit succeeds. *)
Lemma set_succeeds p os self name :
  fault os = None → is_Some (slots os !! self) →
  representable p name = true → within_limit p name = true →
  SetThreadName (Native p) os self name
  = (Ok tt, MkOS (<[self := name]> (slots os)) None).
Proof.
  intros Hf [w0 Hl] Hr Hw.
  rewrite (set_native_unfold _ _ _ _ _ (prepare_valid _ _ Hr Hw)).
  unfold SetThreadDescription. by rewrite Hf, Hl.
Qed.

(** ** The read path *)

Lemma get_depends_on os1 os2 b self h :
  slots os1 !! h = slots os2 !! h → fault os1 = fault os2 →
  GetThreadName b os1 self h = GetThreadName b os2 self h.
Proof.
  intros Hs Hf. unfold GetThreadName, get_thread_name, GetThreadDescription.
  by rewrite Hs, Hf.
Qed.

(** A thread that has just started reads the empty name; a thread that has
    ended is not found. *)
Lemma unnamed_default p os h :
  fault os = None → GetThreadName (Native p) (thread_start os h) h h = Ok "".
Proof.
  intros Hf. unfold GetThreadName, get_thread_name, thread_start.
  rewrite bool_decide_true by done. rewrite andb_false_r.
  rewrite Hf. by rewrite native_get_stored.
Qed.

Example exited_thread_not_found :
  GetThreadName (Native limit15) (thread_exit two_threads 2) 1 2 = Err NotFound.
Proof. reflexivity. Qed.

(** ** The claims about the facility *)

Section OnNativePlatform.
Variable p : Platform.

(** C6 (as amended): on a backend with a native primitive, where the calling
    thread is live and the native calls of the operating system do not fail,
    for every name that is representable and within the platform's length
    limit [SetThreadName] succeeds, and [GetThreadName] on the calling thread
    then returns exactly that name. *)
Theorem roundtrip_on_native (os : OS) (self : ThreadHandle) (name : ThreadName) :
  fault os = None →
  is_Some (slots os !! self) →
  representable p name = true →
  within_limit p name = true →
  (SetThreadName (Native p) os self name).1 = Ok tt
  ∧ GetThreadName (Native p) (SetThreadName (Native p) os self name).2 self self
    = Ok name.
Proof.
  intros Hf Hlive Hr Hw.
  rewrite (set_succeeds p os self name Hf Hlive Hr Hw). cbn [fst snd].
  split; [done |].
  unfold GetThreadName, get_thread_name.
  rewrite bool_decide_true by done. rewrite andb_false_r.
  by rewrite native_get_stored.
Qed.

End OnNativePlatform.

Lemma roundtrip_on_native_witness :
  (SetThreadName (Native limit15) two_threads 1 "GPU-copy-worker").1 = Ok tt
  ∧ GetThreadName (Native limit15)
      (SetThreadName (Native limit15) two_threads 1 "GPU-copy-worker").2 1 1
    = Ok "GPU-copy-worker".
Proof.
  apply (roundtrip_on_native limit15 two_threads 1 "GPU-copy-worker").
  - reflexivity.
  - eexists. reflexivity.
  - reflexivity.
  - reflexivity.
Defined.

(** C6 as stated fails on the no-op backend: the write succeeds and the read
    returns the empty name, not the name written. *)
Lemma roundtrip_fails_on_noop :
  SetThreadName NoOp two_threads 1 "worker" = (Ok tt, two_threads)
  ∧ GetThreadName NoOp two_threads 1 1 = Ok ""
  ∧ GetThreadName NoOp two_threads 1 1 ≠ Ok "worker".
Proof. repeat split. discriminate. Qed.

(** C7: on the no-op backend [SetThreadName] returns success for every name
    (and leaves the operating system as it was), and [GetThreadName] returns
    success with the empty name for every handle, whatever the state of the
    operating system and whoever calls. *)
Theorem noop_backend_is_silent
    (os : OS) (self handle : ThreadHandle) (name : ThreadName) :
  SetThreadName NoOp os self name = (Ok tt, os)
  ∧ GetThreadName NoOp os self handle = Ok "".
Proof. split; reflexivity. Qed.

(** C8: both operations are total functions into the typed result.  On the
    write path the only errors are [InvalidName] and [NativeFailure] with a
    failing status; on the read path [Unsupported], [NotFound] and
    [NativeFailure] with a failing status.  A native call that fails is never
    answered with success: the write path returns [NativeFailure] with the
    very status, the read path returns [NotFound] for the invalid-handle
    status and [NativeFailure] with the very status otherwise.  Success comes
    only from a native call that succeeded, or from the no-op backend. *)
Theorem native_failures_reach_the_caller
    (b : Backend) (os : OS) (self : ThreadHandle) :
  (∀ p name w,
     b = Native p → prepare p name = Ok w →
     FAILED (SetThreadDescription os self w).1 = true →
     (SetThreadName b os self name).1
     = Err (NativeFailure (SetThreadDescription os self w).1))
  ∧ (∀ name os',
       SetThreadName b os self name = (Ok tt, os') →
       b = NoOp
       ∨ ∃ p w, b = Native p ∧ prepare p name = Ok w
                ∧ os' = (SetThreadDescription os self w).2
                ∧ FAILED (SetThreadDescription os self w).1 = false)
  ∧ (∀ name e,
       (SetThreadName b os self name).1 = Err e →
       e = InvalidName ∨ ∃ hr, e = NativeFailure hr ∧ FAILED hr = true)
  ∧ (∀ p handle,
       b = Native p → reads_other_threads p = true ∨ handle = self →
       FAILED (GetThreadDescription os handle).1 = true →
       GetThreadName b os self handle
       = Err (if bool_decide ((GetThreadDescription os handle).1 = E_HANDLE)
              then NotFound
              else NativeFailure (GetThreadDescription os handle).1))
  ∧ (∀ handle w,
       GetThreadName b os self handle = Ok w →
       b = NoOp ∨ FAILED (GetThreadDescription os handle).1 = false)
  ∧ (∀ handle e,
       GetThreadName b os self handle = Err e →
       e = Unsupported ∨ e = NotFound
       ∨ ∃ hr, e = NativeFailure hr ∧ FAILED hr = true).
Proof.
  split; [| split; [| split; [| split; [| split]]]].
  - intros p name w -> Hp Hfail.
    rewrite (set_native_unfold _ _ _ _ _ Hp). cbn. by rewrite Hfail.
  - intros name os' Hset. destruct b as [| p]; [by left | right].
    destruct (prepare p name) as [w | e] eqn:Hp.
    + rewrite (set_native_unfold _ _ _ _ _ Hp) in Hset.
      exists p, w.
      destruct (FAILED (SetThreadDescription os self w).1); [done |].
      by injection Hset as <-.
    + unfold SetThreadName, set_current_thread_name in Hset.
      by rewrite Hp in Hset.
  - intros name e Herr. destruct b as [| p]; [done |].
    destruct (prepare p name) as [w | e'] eqn:Hp.
    + rewrite (set_native_unfold _ _ _ _ _ Hp) in Herr. cbn in Herr.
      destruct (FAILED (SetThreadDescription os self w).1) eqn:Hf; [| done].
      injection Herr as <-. right. by eexists.
    + unfold SetThreadName, set_current_thread_name in Herr.
      rewrite Hp in Herr. injection Herr as <-.
      left. by apply (prepare_error p name).
  - intros p handle -> Hmay Hfail.
    unfold GetThreadName, get_thread_name.
    replace (negb (reads_other_threads p) && negb (bool_decide (handle = self)))
      with false.
    2:{ destruct Hmay as [-> | ->]; [done |].
        rewrite bool_decide_true by done. by rewrite andb_false_r. }
    destruct (GetThreadDescription os handle) as [hr buf]. cbn in *.
    rewrite Hfail. by destruct (bool_decide (hr = E_HANDLE)).
  - intros handle w Hget. destruct b as [| p]; [by left | right].
    unfold GetThreadName, get_thread_name in Hget.
    destruct (negb _ && negb _); [done |].
    destruct (GetThreadDescription os handle) as [hr buf]. cbn.
    destruct (FAILED hr); [| done].
    by destruct (bool_decide (hr = E_HANDLE)).
  - intros handle e Hget. destruct b as [| p]; [done |].
    unfold GetThreadName, get_thread_name in Hget.
    destruct (negb _ && negb _); [left; congruence |].
    destruct (GetThreadDescription os handle) as [hr buf].
    destruct (FAILED hr) eqn:Hf.
    + destruct (bool_decide (hr = E_HANDLE)); injection Hget as <-.
      * right. by left.
      * right. right. by eexists.
    + by destruct buf.
Qed.

Lemma native_failures_reach_the_caller_witness :
  (SetThreadName (Native limit15) failing_os 1 "worker").1
  = Err (NativeFailure (-5))
  ∧ GetThreadName (Native limit15) failing_os 1 2 = Err (NativeFailure (-5))
  ∧ GetThreadName (Native limit15) two_threads 1 3 = Err NotFound.
Proof.
  pose proof (native_failures_reach_the_caller (Native limit15) failing_os 1)
    as (Hset & _ & _ & Hget & _).
  pose proof (native_failures_reach_the_caller (Native limit15) two_threads 1)
    as (_ & _ & _ & Hdead & _).
  split; [exact (Hset limit15 "worker" "worker" eq_refl eq_refl eq_refl) |].
  split; [exact (Hget limit15 2 eq_refl (or_introl eq_refl) eq_refl) |].
  exact (Hdead limit15 3 eq_refl (or_introl eq_refl) eq_refl).
Defined.

(** C9: when thread [A] names itself, whatever the outcome, the name slot of
    every other thread [B] is what it was, and so is what any caller reads
    for [B] afterwards. *)
Theorem naming_is_per_thread
    (b : Backend) (os : OS) (A B : ThreadHandle) (name : ThreadName) :
  A ≠ B →
  slots (SetThreadName b os A name).2 !! B = slots os !! B
  ∧ ∀ observer,
      GetThreadName b (SetThreadName b os A name).2 observer B
      = GetThreadName b os observer B.
Proof.
  intros Hne. destruct (set_frame b os A name B Hne) as [Hs Hf].
  split; [exact Hs |]. intros observer. by apply get_depends_on.
Qed.

Lemma naming_is_per_thread_witness :
  slots (SetThreadName (Native limit15) two_threads 1 "worker").2 !! 2
  = slots two_threads !! 2
  ∧ ∀ observer,
      GetThreadName (Native limit15)
        (SetThreadName (Native limit15) two_threads 1 "worker").2 observer 2
      = GetThreadName (Native limit15) two_threads observer 2.
Proof.
  apply (naming_is_per_thread (Native limit15) two_threads 1 2 "worker").
  discriminate.
Defined.

(** The thread that named itself does read the new name, so the frame above
    is not that of an operation that changes nothing. *)
Example naming_changes_own_slot :
  GetThreadName (Native limit15)
    (SetThreadName (Native limit15) two_threads 1 "worker").2 2 1 = Ok "worker"
  ∧ GetThreadName (Native limit15) two_threads 2 1 = Ok "".
Proof. split; reflexivity. Qed.

End NamingFacts.
